(** * BirdEyeClient: a shallow embedding of [birdeye.py]

    The client is thin glue around two library calls, [requests.get] /
    [requests.post] and [Response.json].  The embedding keeps the code's
    control flow (the [match] on [method.upper()], the [for] loop that fills
    the [prices] dict, the two [try]/[except (ValueError, KeyError)] blocks)
    and threads the one effect the code has, outbound HTTP calls, through a
    small state-and-exception monad whose state is the list of calls made so
    far. *)

From Stdlib Require Import PrimFloat ZArith.
From stdpp Require Import gmap strings list fin_maps.

Set Warnings "-register-all,-inexact-float,-clear-no-such-hyp".
Set Default Proof Using "Type".

(** ** Python values *)

(** What [Response.json()] can hand back: the Python image of a JSON
    document.  A JSON object becomes a [dict] with string keys. *)
Inductive pyval : Type :=
  | PNone
  | PBool (b : bool)
  | PInt (z : Z)
  | PFloat (f : float)
  | PStr (s : string)
  | PList (l : list pyval)
  | PDict (d : gmap string pyval).

(** ** Exceptions *)

(** The exception classes that can travel through the client.  The three
    [raise] statements of the source all build a plain [ValueError] with a
    message.  [JSONDecodeError] (raised by [Response.json()]) and
    [InvalidURL] (raised by [requests] before sending) are subclasses of
    [ValueError]; [ConnectionError] stands for the transport failures that
    are not. *)
Inductive exn : Type :=
  | ValueError (msg : string)
  | KeyError (key : string)
  | TypeError
  | JSONDecodeError
  | InvalidURL
  | ConnectionError.

(** [isinstance(e, ValueError)] *)
Definition is_ValueError (e : exn) : bool :=
  match e with
  | ValueError _ | JSONDecodeError | InvalidURL => true
  | KeyError _ | TypeError | ConnectionError => false
  end.

(** [isinstance(e, KeyError)] *)
Definition is_KeyError (e : exn) : bool :=
  match e with
  | KeyError _ => true
  | _ => false
  end.

(** ** Records of the source *)

(** [class PriceInfo(NamedTuple)]: the annotation [price: float] is not
    enforced at run time, the field holds whatever [data['value']] was. *)
Record PriceInfo : Type := mkPriceInfo { price : pyval }.

(** [class TokenOverview(NamedTuple)] *)
Record TokenOverview : Type := mkTokenOverview {
  address : pyval;
  decimals : pyval;
  liquidity : pyval;
  logoURI : pyval;
  mc : pyval;
  symbol : pyval;
  v24hChangePercent : pyval;
  v24hUSD : pyval;
  name : pyval;
  lastTradeUnixTime : pyval
}.

(** ** HTTP calls and responses *)

Inductive verb : Type := GET | POST.

(** One call of [requests.get] or [requests.post], with everything the
    client passes to it. *)
Record call : Type := mkCall {
  call_verb : verb;
  call_url : string;
  call_args : list pyval;
  call_headers : list (string * string);
  call_kwargs : list (string * pyval)
}.

(** A [requests.Response], as far as the client can observe it. *)
Record Response : Type := mkResponse {
  status_code : Z;
  content : string
}.

(** The outside world: what a call returns (or raises), given the calls made
    before it. *)
Definition network : Type := list call → call → exn + Response.

(** ** The library functions the client relies on

    They are kept abstract: the properties below hold for any
    implementation.  The only fact about [str.upper()] that is ever needed is
    that it leaves the literal [GET], which both public operations pass to
    [_make_api_call], unchanged; it appears as the hypothesis
    [str_upper "GET" = "GET"] where a statement depends on it. *)

Class Runtime : Type := {
  (** [str.upper()] *)
  str_upper : string → string;
  (** the JSON decoder behind [Response.json()]; [None] when it rejects the
      body *)
  json_loads : string → option pyval;
  (** [Config.BIRD_EYE_TOKEN], read from the environment at import *)
  BIRD_EYE_TOKEN : string
}.

(** ** The client monad: calls made so far, and a result or an exception *)

Definition Client (A : Type) : Type := list call → list call * (exn + A).

Definition ret {A} (a : A) : Client A := λ s, (s, inr a).

Definition raise {A} (e : exn) : Client A := λ s, (s, inl e).

Definition bind {A B} (c : Client A) (k : A → Client B) : Client B :=
  λ s, match c s with
       | (s', inr a) => k a s'
       | (s', inl e) => (s', inl e)
       end.

(** a pure step that may raise *)
Definition lift {A} (r : exn + A) : Client A := λ s, (s, r).

(** [try: body  except <classes>: handler]; an exception outside
    [classes] goes on to the caller *)
Definition try_except {A} (body : Client A) (classes : exn → bool)
    (handler : Client A) : Client A :=
  λ s, match body s with
       | (s', inl e) => if classes e then handler s' else (s', inl e)
       | r => r
       end.

Declare Scope client_scope.
Delimit Scope client_scope with client.
Bind Scope client_scope with Client.
Notation "'let*' x ':=' c 'in' k" := (bind c (λ x, k))
  (at level 10, x name, c at level 100, k at level 200) : client_scope.
Local Open Scope client_scope.

(** ** Subscripting and JSON decoding *)

(** [data[key]] with a string key: a [dict] answers or raises [KeyError];
    every other value raises [TypeError]. *)
Definition getitem (data : pyval) (key : string) : exn + pyval :=
  match data with
  | PDict d =>
      match d !! key with
      | Some v => inr v
      | None => inl (KeyError key)
      end
  | _ => inl TypeError
  end.

(** ** Binding the arguments of [requests.get] and [requests.post] *)

(** the parameters that [get(url, params=None, **kwargs)] and
    [post(url, data=None, json=None, **kwargs)] accept by position *)
Definition positional_parameters (v : verb) : list string :=
  match v with
  | GET => ["url"; "params"]
  | POST => ["url"; "data"; "json"]
  end.

(** Whether the call [query_method(query_url, *args, headers=..., **kwargs)]
    binds its arguments: [kwargs] must not repeat the keyword [headers], the
    positional arguments [query_url, *args] must fit the positional
    parameters, and no keyword may name a parameter already filled by
    position.  Otherwise Python raises [TypeError] and the function is not
    entered. *)
Definition binds (v : verb) (args : list pyval)
    (kwargs : list (string * pyval)) : bool :=
  let filled := take (S (length args)) (positional_parameters v) in
  bool_decide ("headers" ∉ kwargs.*1)
  && (S (length args) <=? length (positional_parameters v))
  && bool_decide (Forall (λ k, k ∉ filled) kwargs.*1).

Section client.
Context `{Runtime}.
Variable net : network.

(** [resp.json()] *)
Definition Response_json (resp : Response) : exn + pyval :=
  match json_loads (content resp) with
  | Some v => inr v
  | None => inl JSONDecodeError
  end.

(** [requests.get] / [requests.post]: the call is recorded and the network
    answers. *)
Definition requests_call (c : call) : Client Response :=
  λ s, (s ++ [c], net s c).

(** ** [BirdEyeClient] *)

Definition dquote : string := String (Ascii.ascii_of_nat 34) EmptyString.

Definition _headers : list (string * string) :=
  [("accept", "application/json");
   ("x-chain", "solana");
   ("X-API-KEY", BIRD_EYE_TOKEN)].

Definition unrecognised_method (method query_url : string) : string :=
  "Unrecognised method " +:+ dquote +:+ method +:+ dquote
    +:+ " passed for query - " +:+ query_url.

(** the [match method.upper()] statement *)
Definition query_method (method query_url : string) : exn + verb :=
  let m := str_upper method in
  if String.eqb m "GET" then inr GET
  else if String.eqb m "POST" then inr POST
  else inl (ValueError (unrecognised_method method query_url)).

(** [query_method(query_url, *args, headers=self._headers, **kwargs)] *)
Definition call_query_method (v : verb) (query_url : string)
    (args : list pyval) (kwargs : list (string * pyval)) : Client Response :=
  if binds v args kwargs
  then requests_call (mkCall v query_url args _headers kwargs)
  else raise TypeError.

Definition _make_api_call (method query_url : string)
    (args : list pyval) (kwargs : list (string * pyval)) : Client Response :=
  let* v := lift (query_method method query_url) in
  let* resp := call_query_method v query_url args kwargs in
  ret resp.

Definition price_url (address : string) : string :=
  "https://public-api.birdeye.so/public/price?address=" +:+ address.

Definition invalid_price_response (address : string) : string :=
  "Invalid response received for token: " +:+ address.

(** the body of the [for] loop of [fetch_prices] *)
Definition fetch_price (address : string) (prices : gmap string PriceInfo)
    : Client (gmap string PriceInfo) :=
  let url := price_url address in
  try_except
    (let* resp := _make_api_call "GET" url [] [] in
     let* data := lift (Response_json resp) in
     let* value := lift (getitem data "value") in
     ret (<[address := mkPriceInfo value]> prices))
    (λ e, is_ValueError e || is_KeyError e)
    (raise (ValueError (invalid_price_response address))).

Fixpoint fetch_prices_loop (token_addresses : list string)
    (prices : gmap string PriceInfo) : Client (gmap string PriceInfo) :=
  match token_addresses with
  | [] => ret prices
  | address :: rest =>
      let* prices' := fetch_price address prices in
      fetch_prices_loop rest prices'
  end.

Definition fetch_prices (token_addresses : list string)
    : Client (gmap string PriceInfo) :=
  match token_addresses with
  | [] => raise (ValueError "No tokens provided.")
  | _ :: _ => fetch_prices_loop token_addresses ∅
  end.

Definition overview_url (address : string) : string :=
  "https://public-api.birdeye.so/defi/token_overview?address=" +:+ address.

Definition invalid_overview_response (address : string) : string :=
  "Invalid response received for token overview: " +:+ address.

Definition fetch_token_overview (address : string) : Client TokenOverview :=
  let url := overview_url address in
  try_except
    (let* resp := _make_api_call "GET" url [] [] in
     let* data := lift (Response_json resp) in
     let* f_address := lift (getitem data "address") in
     let* f_decimals := lift (getitem data "decimals") in
     let* f_liquidity := lift (getitem data "liquidity") in
     let* f_logoURI := lift (getitem data "logoURI") in
     let* f_mc := lift (getitem data "mc") in
     let* f_symbol := lift (getitem data "symbol") in
     let* f_v24hChangePercent := lift (getitem data "v24hChangePercent") in
     let* f_v24hUSD := lift (getitem data "v24hUSD") in
     let* f_name := lift (getitem data "name") in
     let* f_lastTradeUnixTime := lift (getitem data "lastTradeUnixTime") in
     ret (mkTokenOverview f_address f_decimals f_liquidity f_logoURI f_mc
            f_symbol f_v24hChangePercent f_v24hUSD f_name
            f_lastTradeUnixTime))
    (λ e, is_ValueError e || is_KeyError e)
    (raise (ValueError (invalid_overview_response address))).

End client.

Arguments mkCall _ _%_string _ _ _.

(** ** Vocabulary for the statements *)

(** the call the two public operations make for a URL *)
Definition get_call `{Runtime} (url : string) : call :=
  mkCall GET url [] _headers [].

(** the calls [fetch_prices] makes for a list of addresses, in order *)
Definition price_calls `{Runtime} (token_addresses : list string) : list call :=
  (λ a, get_call (price_url a)) <$> token_addresses.

(** After the calls [s], the client's call for [url] is answered by a
    response whose body decodes to the JSON object [d]. *)
Definition receives_object `{Runtime} (net : network) (s : list call)
    (url : string) (d : gmap string pyval) : Prop :=
  ∃ resp, net s (get_call url) = inr resp
          ∧ json_loads (content resp) = Some (PDict d).

(** what one iteration of the loop of [fetch_prices] makes of the network's
    answer: the price, or the exception that leaves [fetch_prices] *)
Definition price_entry `{Runtime} (address : string) (reply : exn + Response)
    : exn + pyval :=
  match reply with
  | inl e =>
      if is_ValueError e || is_KeyError e
      then inl (ValueError (invalid_price_response address)) else inl e
  | inr resp =>
      match json_loads (content resp) with
      | None => inl (ValueError (invalid_price_response address))
      | Some (PDict d) =>
          match d !! "value" with
          | Some v => inr v
          | None => inl (ValueError (invalid_price_response address))
          end
      | Some _ => inl TypeError
      end
  end.

(** the keys [fetch_token_overview] reads, in the order it reads them *)
Definition overview_keys : list string :=
  ["address"; "decimals"; "liquidity"; "logoURI"; "mc"; "symbol";
   "v24hChangePercent"; "v24hUSD"; "name"; "lastTradeUnixTime"].

(** Two networks that answer every call alike except, possibly, for the
    status code of the response. *)
Definition same_reply_up_to_status (r1 r2 : exn + Response) : Prop :=
  match r1, r2 with
  | inl e1, inl e2 => e1 = e2
  | inr resp1, inr resp2 => content resp1 = content resp2
  | _, _ => False
  end.

Definition same_up_to_status (net1 net2 : network) : Prop :=
  ∀ s c, same_reply_up_to_status (net1 s c) (net2 s c).

(** A network whose answer to a call does not depend on the calls made
    before it. *)
Definition history_free (net : network) : Prop :=
  ∀ s s' c, net s c = net s' c.

(** *** The three failures of the client, as a caller can tell them apart *)

Inductive error_kind : Type := InvalidInput | InvalidResponse | UnsupportedMethod.

(** All three are raised as [ValueError]; the message text tells the kind. *)
Definition error_kind_of (e : exn) : option error_kind :=
  match e with
  | ValueError msg =>
      if String.eqb msg "No tokens provided." then Some InvalidInput
      else if String.prefix "Invalid response received for token" msg
      then Some InvalidResponse
      else if String.prefix "Unrecognised method " msg
      then Some UnsupportedMethod
      else None
  | _ => None
  end.

Definition verb_name (v : verb) : string :=
  match v with
  | GET => "GET"
  | POST => "POST"
  end.

(** ** A concrete runtime and concrete networks, to run the client on *)

Module Sample.

(** [str.upper()] on ASCII text *)
Definition upper_char (c : Ascii.ascii) : Ascii.ascii :=
  let n := Ascii.nat_of_ascii c in
  if (97 <=? n)%nat && (n <=? 122)%nat then Ascii.ascii_of_nat (n - 32) else c.

Fixpoint upper (s : string) : string :=
  match s with
  | EmptyString => EmptyString
  | String c s' => String (upper_char c) (upper s')
  end.

Definition quoted (s : string) : string := dquote +:+ s +:+ dquote.

(** the body [{"value": <literal>}] *)
Definition value_body (literal : string) : string :=
  "{" +:+ quoted "value" +:+ ": " +:+ literal +:+ "}".

Definition overview_fields : gmap string pyval :=
  <["address" := PStr "SOL"]> (
  <["decimals" := PInt 9]> (
  <["liquidity" := PFloat 1500.5]> (
  <["logoURI" := PStr "https://example.org/sol.png"]> (
  <["mc" := PFloat 2.5e9]> (
  <["symbol" := PStr "SOL"]> (
  <["v24hChangePercent" := PFloat (-1.5)]> (
  <["v24hUSD" := PFloat 1e6]> (
  <["name" := PStr "Wrapped SOL"]> (
  <["lastTradeUnixTime" := PInt 1700000000]> ∅))))))))).

(** stands for the JSON text of [overview_fields] *)
Definition overview_body : string := "{ten overview fields}".

(** stands for the JSON text of [overview_fields] without [symbol] *)
Definition overview_body_no_symbol : string := "{nine overview fields}".

(** a decoder that knows the bodies used below and rejects the rest *)
Definition loads (body : string) : option pyval :=
  if String.eqb body (value_body "1.23")
  then Some (PDict {["value" := PFloat 1.23]})
  else if String.eqb body (value_body "4.56")
  then Some (PDict {["value" := PFloat 4.56]})
  else if String.eqb body "{}" then Some (PDict ∅)
  else if String.eqb body "[]" then Some (PList [])
  else if String.eqb body "null" then Some PNone
  else if String.eqb body overview_body then Some (PDict overview_fields)
  else if String.eqb body overview_body_no_symbol
  then Some (PDict (delete "symbol" overview_fields))
  else None.

#[global] Instance runtime : Runtime :=
  {| str_upper := upper; json_loads := loads; BIRD_EYE_TOKEN := "secret" |}.

(** a server that answers by URL, always with the same status code *)
Definition server (status : Z) : network := λ _ c,
  let url := call_url c in
  if String.eqb url (price_url "ADDR1")
  then inr (mkResponse status (value_body "1.23"))
  else if String.eqb url (price_url "ADDR2")
  then inr (mkResponse status (value_body "4.56"))
  else if String.eqb url (price_url "EMPTY")
  then inr (mkResponse status "{}")
  else if String.eqb url (price_url "ARRAY")
  then inr (mkResponse status "[]")
  else if String.eqb url (price_url "HTML")
  then inr (mkResponse status "<html>Bad Gateway</html>")
  else if String.eqb url (overview_url "SOL")
  then inr (mkResponse status overview_body)
  else if String.eqb url (overview_url "NOSYM")
  then inr (mkResponse status overview_body_no_symbol)
  else if String.eqb url (overview_url "NULL")
  then inr (mkResponse status "null")
  else inl ConnectionError.


End Sample.

(** * Properties *)

(** ** Verb dispatch *)

Section dispatch.
Context `{Runtime}.
Variable net : network.

Lemma query_method_verb method query_url v :
  str_upper method = verb_name v → query_method method query_url = inr v.
Proof.
  unfold query_method. intros ->. by destruct v.
Qed.

Lemma query_method_other method query_url :
  str_upper method ≠ "GET" → str_upper method ≠ "POST" →
  query_method method query_url
  = inl (ValueError (unrecognised_method method query_url)).
Proof.
  unfold query_method. intros Hg Hp.
  destruct (String.eqb_spec (str_upper method) "GET"); [done|].
  by destruct (String.eqb_spec (str_upper method) "POST").
Qed.

Lemma make_api_call_verb method query_url args kwargs v s :
  query_method method query_url = inr v →
  binds v args kwargs = true →
  _make_api_call net method query_url args kwargs s
  = (s ++ [mkCall v query_url args _headers kwargs],
     net s (mkCall v query_url args _headers kwargs)).
Proof.
  unfold _make_api_call, call_query_method, bind, lift, requests_call, ret.
  intros -> ->. by destruct (net s _).
Qed.

Lemma make_api_call_unbound method query_url args kwargs v s :
  query_method method query_url = inr v →
  binds v args kwargs = false →
  _make_api_call net method query_url args kwargs s = (s, inl TypeError).
Proof.
  unfold _make_api_call, call_query_method, bind, lift. by intros -> ->.
Qed.

Lemma make_api_call_raise method query_url args kwargs e s :
  query_method method query_url = inl e →
  _make_api_call net method query_url args kwargs s = (s, inl e).
Proof.
  unfold _make_api_call, bind, lift. by intros ->.
Qed.

End dispatch.

(** C10: dispatch looks at [method.upper()] only.  A method string whose
    upper-case form is [GET] or [POST] selects that verb: the [case _] branch
    is not taken.  The call that follows is made with the selected verb: when
    its arguments bind, it goes out and the outcome of [_make_api_call] is
    whatever the network answers; when they do not, Python raises
    [TypeError] and nothing goes out.  In neither case is the outcome the
    [ValueError] of the [case _] branch, unless the network itself raised
    it. *)
Theorem make_api_call_case_insensitive `{Runtime} (net : network)
    (method query_url : string) (args : list pyval)
    (kwargs : list (string * pyval)) (v : verb) (s : list call) :
  str_upper method = verb_name v →
  query_method method query_url = inr v
  ∧ _make_api_call net method query_url args kwargs s
    = call_query_method net v query_url args kwargs s
  ∧ (binds v args kwargs = true →
     _make_api_call net method query_url args kwargs s
     = (s ++ [mkCall v query_url args _headers kwargs],
        net s (mkCall v query_url args _headers kwargs)))
  ∧ (binds v args kwargs = false →
     _make_api_call net method query_url args kwargs s
     = (s, inl TypeError)).
Proof.
  intros Hv. pose proof (query_method_verb method query_url v Hv) as Hq.
  split; [done|]. split.
  { unfold _make_api_call, bind, lift, ret. rewrite Hq.
    by destruct (call_query_method net v query_url args kwargs s)
      as [s' [e|resp]]. }
  split; intros Hb;
    [by apply make_api_call_verb|by eapply make_api_call_unbound].
Qed.

Lemma make_api_call_case_insensitive_witness :
  Sample.upper "Post" = "POST"
  ∧ _make_api_call (Sample.server 200) "Post" "https://example.org/x" [] [] []
    = ([mkCall POST "https://example.org/x" [] _headers []],
       inl ConnectionError).
Proof.
  split; [reflexivity|].
  exact (proj1 (proj2 (proj2
           (make_api_call_case_insensitive (Sample.server 200) "Post"
              "https://example.org/x" [] [] POST [] eq_refl))) eq_refl).
Defined.

(** C6, as the code has it: when the upper-case form of the method string is
    neither [GET] nor [POST], [_make_api_call] raises the [ValueError] whose
    message quotes the method string as given and the URL, and the list of
    calls made is left as it was. *)
Theorem make_api_call_unsupported `{Runtime} (net : network)
    (method query_url : string) (args : list pyval)
    (kwargs : list (string * pyval)) (s : list call) :
  str_upper method ≠ "GET" → str_upper method ≠ "POST" →
  _make_api_call net method query_url args kwargs s
  = (s, inl (ValueError (unrecognised_method method query_url)))
  ∧ error_kind_of (ValueError (unrecognised_method method query_url))
    = Some UnsupportedMethod.
Proof.
  intros Hg Hp. split; [|reflexivity].
  apply make_api_call_raise. by apply query_method_other.
Qed.

Lemma make_api_call_unsupported_witness :
  _make_api_call (Sample.server 200) "DELETE" "https://example.org/x" [] [] []
  = ([], inl (ValueError (unrecognised_method "DELETE" "https://example.org/x"))).
Proof.
  refine (proj1 (make_api_call_unsupported (Sample.server 200) "DELETE"
                   "https://example.org/x" [] [] [] _ _)); by vm_compute.
Defined.

(** C6, as the claim words it, fails: [get] is a method string other than
    [GET] and [POST], and the call goes out. *)
Lemma make_api_call_lowercase_get_dispatches :
  "get" ≠ "GET" ∧ "get" ≠ "POST"
  ∧ _make_api_call (Sample.server 200) "get" (price_url "ADDR1") [] [] []
    = ([mkCall GET (price_url "ADDR1") [] _headers []],
       inr (mkResponse 200 (Sample.value_body "1.23"))).
Proof. repeat split; by vm_compute. Qed.

(** ** One iteration of the price loop *)

Section price_loop.
Context `{Runtime}.
Variable net : network.
Hypothesis upper_GET : str_upper "GET" = "GET".

Lemma make_api_call_GET url s :
  _make_api_call net "GET" url [] [] s
  = (s ++ [get_call url], net s (get_call url)).
Proof using upper_GET.
  apply make_api_call_verb; [by apply (query_method_verb _ _ GET)|done].
Qed.

Lemma fetch_price_eq address prices s :
  fetch_price net address prices s
  = (s ++ [get_call (price_url address)],
     match price_entry address (net s (get_call (price_url address))) with
     | inl e => inl e
     | inr v => inr (<[address := mkPriceInfo v]> prices)
     end).
Proof using upper_GET.
  unfold fetch_price, try_except, bind. rewrite make_api_call_GET.
  unfold price_entry.
  destruct (net s _) as [e|resp]; simpl.
  { by destruct (is_ValueError e || is_KeyError e). }
  unfold Response_json. destruct (json_loads (content resp)) as [data|]; [|done].
  destruct data; simpl; try done.
  by destruct (d !! "value").
Qed.

(** a price comes out of an answer only if the answer is a JSON object
    with the key [value] *)
Lemma price_entry_inr address reply v :
  price_entry address reply = inr v →
  ∃ resp d, reply = inr resp
            ∧ json_loads (content resp) = Some (PDict d)
            ∧ d !! "value" = Some v.
Proof.
  unfold price_entry. destruct reply as [e|resp].
  { by destruct (is_ValueError e || is_KeyError e). }
  destruct (json_loads (content resp)) as [[]|] eqn:Hd; try done.
  destruct (d !! "value") eqn:Hv; [|done]. intros [= ->]. eauto.
Qed.

Lemma price_entry_object address s d v :
  receives_object net s (price_url address) d → d !! "value" = Some v →
  price_entry address (net s (get_call (price_url address))) = inr v.
Proof.
  intros (resp & -> & Hd) Hv. unfold price_entry. by rewrite Hd, Hv.
Qed.

Lemma fetch_prices_loop_cons address rest prices s :
  fetch_prices_loop net (address :: rest) prices s
  = match price_entry address (net s (get_call (price_url address))) with
    | inl e => (s ++ [get_call (price_url address)], inl e)
    | inr v =>
        fetch_prices_loop net rest (<[address := mkPriceInfo v]> prices)
          (s ++ [get_call (price_url address)])
    end.
Proof using upper_GET.
  simpl. unfold bind. rewrite fetch_price_eq. by destruct (price_entry _ _).
Qed.

(** the loop, taken apart at any position: when the iterations over
    [done] have gone through, the run continues from there *)
Lemma fetch_prices_loop_app done rest prices s :
  fetch_prices_loop net (done ++ rest) prices s
  = match fetch_prices_loop net done prices s with
    | (s', inr prices') => fetch_prices_loop net rest prices' s'
    | (s', inl e) => (s', inl e)
    end.
Proof using upper_GET.
  revert prices s. induction done as [|a done IH]; intros prices s; [done|].
  rewrite <- app_comm_cons, !fetch_prices_loop_cons.
  destruct (price_entry _ _); [done|]. apply IH.
Qed.

Lemma price_calls_cons s a l :
  s ++ price_calls (a :: l)
  = (s ++ [get_call (price_url a)]) ++ price_calls l.
Proof. unfold price_calls. by rewrite fmap_cons, <- app_assoc. Qed.

(** a run of the loop that returns has made one call per element, in
    order *)
Lemma fetch_prices_loop_calls token_addresses prices s s' m :
  fetch_prices_loop net token_addresses prices s = (s', inr m) →
  s' = s ++ price_calls token_addresses.
Proof using upper_GET.
  revert prices s. induction token_addresses as [|a l IH]; intros prices s.
  { intros [= <- _]. by rewrite app_nil_r. }
  rewrite fetch_prices_loop_cons. destruct (price_entry _ _); [done|].
  intros ->%IH. by rewrite price_calls_cons.
Qed.

Lemma fetch_prices_loop_dom token_addresses prices s s' m :
  fetch_prices_loop net token_addresses prices s = (s', inr m) →
  dom m = dom prices ∪ list_to_set token_addresses.
Proof using upper_GET.
  revert prices s. induction token_addresses as [|a l IH]; intros prices s.
  { intros [= _ <-]. set_solver. }
  rewrite fetch_prices_loop_cons. destruct (price_entry _ _); [done|].
  intros ->%IH. rewrite dom_insert_L. set_solver.
Qed.

Lemma fetch_prices_loop_notin token_addresses prices s s' m a :
  fetch_prices_loop net token_addresses prices s = (s', inr m) →
  a ∉ token_addresses → m !! a = prices !! a.
Proof using upper_GET.
  revert prices s. induction token_addresses as [|b l IH]; intros prices s.
  { by intros [= _ <-]. }
  rewrite fetch_prices_loop_cons. destruct (price_entry _ _); [done|].
  intros Hrun [Hne Hl]%not_elem_of_cons.
  rewrite (IH _ _ Hrun Hl). by rewrite lookup_insert_ne.
Qed.

(** the entry of an address is the one written at its last occurrence *)
Lemma fetch_prices_loop_last done a rest prices s s' m :
  fetch_prices_loop net (done ++ a :: rest) prices s = (s', inr m) →
  a ∉ rest →
  ∃ d v, receives_object net (s ++ price_calls done) (price_url a) d
         ∧ d !! "value" = Some v
         ∧ m !! a = Some (mkPriceInfo v).
Proof using upper_GET.
  rewrite fetch_prices_loop_app.
  destruct (fetch_prices_loop net done prices s) as [s1 [e|p1]] eqn:Hdone;
    [done|].
  apply fetch_prices_loop_calls in Hdone as ->.
  rewrite fetch_prices_loop_cons.
  destruct (price_entry _ _) as [e|v] eqn:Hentry; [done|].
  intros Hrun Hrest.
  apply price_entry_inr in Hentry as (resp & d & Hnet & Hd & Hv).
  exists d, v. split; [by exists resp|]. split; [done|].
  rewrite (fetch_prices_loop_notin _ _ _ _ _ _ Hrun Hrest).
  by rewrite lookup_insert_eq.
Qed.

End price_loop.



(** ** [fetch_prices] *)

Section fetch_prices_facts.
Context `{Runtime}.
Variable net : network.
Hypothesis upper_GET : str_upper "GET" = "GET".

(** when every answer the loop receives is a JSON object with the key
    [value], the loop returns *)
Lemma fetch_prices_loop_returns token_addresses prices s :
  (∀ i a, token_addresses !! i = Some a →
     ∃ d v, receives_object net (s ++ price_calls (take i token_addresses))
              (price_url a) d
            ∧ d !! "value" = Some v) →
  ∃ m, fetch_prices_loop net token_addresses prices s
       = (s ++ price_calls token_addresses, inr m).
Proof using upper_GET.
  revert prices s.
  induction token_addresses as [|a l IH]; intros prices s Hall.
  { exists prices. simpl. by rewrite app_nil_r. }
  rewrite fetch_prices_loop_cons by done.
  destruct (Hall 0 a eq_refl) as (d & v & Hobj & Hv).
  simpl in Hobj. rewrite app_nil_r in Hobj.
  rewrite (price_entry_object net a s d v Hobj Hv).
  destruct (IH (<[a := mkPriceInfo v]> prices)
              (s ++ [get_call (price_url a)])) as [m Hm].
  { intros i b Hb. destruct (Hall (S i) b Hb) as (d' & v' & Hobj' & Hv').
    exists d', v'. split; [|done].
    by rewrite firstn_cons, price_calls_cons in Hobj'. }
  exists m. by rewrite Hm, price_calls_cons.
Qed.

Lemma fetch_prices_nonempty token_addresses s :
  token_addresses ≠ [] →
  fetch_prices net token_addresses s
  = fetch_prices_loop net token_addresses ∅ s.
Proof. by destruct token_addresses. Qed.

(** the first answer that does not decode, or decodes to a JSON object
    without the key [value], ends the run with the [ValueError] that names
    its address *)
Lemma fetch_prices_invalid_response done a rest s s1 m1 resp :
  fetch_prices_loop net done ∅ s = (s1, inr m1) →
  net s1 (get_call (price_url a)) = inr resp →
  json_loads (content resp) = None
  ∨ (∃ d, json_loads (content resp) = Some (PDict d) ∧ d !! "value" = None) →
  fetch_prices net (done ++ a :: rest) s
  = (s1 ++ [get_call (price_url a)],
     inl (ValueError (invalid_price_response a))).
Proof using upper_GET.
  intros Hdone Hnet Hbad.
  rewrite fetch_prices_nonempty by (by destruct done).
  rewrite fetch_prices_loop_app, Hdone, fetch_prices_loop_cons by done.
  rewrite Hnet. unfold price_entry.
  destruct Hbad as [->|(d & -> & ->)]; done.
Qed.

End fetch_prices_facts.

(** C4: [fetch_prices] on the empty list raises the [ValueError]
    [No tokens provided.], whatever the runtime, the network and the calls
    made before, and makes no call. *)
Theorem fetch_prices_empty `{Runtime} (net : network) (s : list call) :
  fetch_prices net [] s = (s, inl (ValueError "No tokens provided."))
  ∧ error_kind_of (ValueError "No tokens provided.") = Some InvalidInput.
Proof. split; reflexivity. Qed.

(** C1: for a non-empty list of addresses, when every answer the loop
    receives decodes to a JSON object whose key [value] holds the value of
    the address asked for, [fetch_prices] returns a mapping whose key set is
    the set of the input addresses and that sends each address to the
    [PriceInfo] of its value. *)
Theorem fetch_prices_well_formed `{Runtime} (net : network)
    (token_addresses : list string) (value_of : string → pyval)
    (s : list call) :
  str_upper "GET" = "GET" →
  token_addresses ≠ [] →
  (∀ i a, token_addresses !! i = Some a →
     ∃ d, receives_object net (s ++ price_calls (take i token_addresses))
            (price_url a) d
          ∧ d !! "value" = Some (value_of a)) →
  ∃ m : gmap string PriceInfo,
    fetch_prices net token_addresses s
    = (s ++ price_calls token_addresses, inr m)
    ∧ dom m = list_to_set token_addresses
    ∧ ∀ a, a ∈ token_addresses → m !! a = Some (mkPriceInfo (value_of a)).
Proof.
  intros upper_GET Hne Hall.
  rewrite fetch_prices_nonempty by done.
  destruct (fetch_prices_loop_returns net upper_GET token_addresses ∅ s)
    as [m Hm].
  { intros i a Ha. destruct (Hall i a Ha) as (d & Hobj & Hv). eauto. }
  exists m. split; [done|]. split.
  { rewrite (fetch_prices_loop_dom net upper_GET _ _ _ _ _ Hm). set_solver. }
  intros a (done & rest & -> & Hrest)%list_elem_of_split_r.
  destruct (fetch_prices_loop_last net upper_GET _ _ _ _ _ _ _ Hm Hrest)
    as (d & v & (resp & Hnet & Hd) & Hv & ->).
  destruct (Hall (length done) a) as (d' & (resp' & Hnet' & Hd') & Hv').
  { by rewrite list_lookup_middle. }
  rewrite take_app_length in Hnet'.
  rewrite Hnet in Hnet'. injection Hnet' as <-.
  rewrite Hd in Hd'. injection Hd' as <-. congruence.
Qed.

Lemma fetch_prices_well_formed_witness :
  fetch_prices (Sample.server 200) ["ADDR1"; "ADDR2"] []
  = ([get_call (price_url "ADDR1"); get_call (price_url "ADDR2")],
     inr (<["ADDR1" := mkPriceInfo (PFloat 1.23)]>
            (<["ADDR2" := mkPriceInfo (PFloat 4.56)]> ∅))).
Proof.
  destruct (fetch_prices_well_formed (Sample.server 200) ["ADDR1"; "ADDR2"]
              (λ a, if String.eqb a "ADDR1" then PFloat 1.23 else PFloat 4.56)
              []) as (m & -> & Hdom & Hm).
  - reflexivity.
  - discriminate.
  - intros [|[|i]] a [= <-].
    + exists {["value" := PFloat 1.23]}. split; [|reflexivity].
      eexists. split; reflexivity.
    + exists {["value" := PFloat 4.56]}. split; [|reflexivity].
      eexists. split; reflexivity.
  - f_equal. f_equal. apply map_eq. intros a.
    destruct (decide (a = "ADDR1")) as [->|H1].
    { rewrite Hm by set_solver. by rewrite lookup_insert_eq. }
    destruct (decide (a = "ADDR2")) as [->|H2].
    { rewrite Hm by set_solver. by rewrite lookup_insert_ne, lookup_insert_eq. }
    rewrite !lookup_insert_ne, lookup_empty by done.
    apply not_elem_of_dom. rewrite Hdom. set_solver.
Defined.



(** C2, where the code departs from it: a body that decodes to a JSON value
    other than an object has no key [value], yet the subscript raises
    [TypeError], which [except (ValueError, KeyError)] lets through; the
    caller gets a [TypeError] and not the [ValueError] naming the address. *)
Theorem fetch_prices_non_object_body `{Runtime} (net : network)
    (a : string) (rest : list string) (s : list call) (resp : Response)
    (data : pyval) :
  str_upper "GET" = "GET" →
  net s (get_call (price_url a)) = inr resp →
  json_loads (content resp) = Some data →
  (∀ d, data ≠ PDict d) →
  getitem data "value" = inl TypeError
  ∧ fetch_prices net (a :: rest) s
    = (s ++ [get_call (price_url a)], inl TypeError)
  ∧ error_kind_of TypeError = None.
Proof.
  intros upper_GET Hnet Hdata Hobj.
  assert (getitem data "value" = inl TypeError) as Hget.
  { destruct data; try done. by destruct (Hobj d). }
  split; [done|]. split; [|done].
  rewrite fetch_prices_nonempty, fetch_prices_loop_cons by done.
  rewrite Hnet. unfold price_entry. rewrite Hdata.
  destruct data; try done. by destruct (Hobj d).
Qed.

Lemma fetch_prices_non_object_body_witness :
  fetch_prices (Sample.server 200) ["ARRAY"; "ADDR1"] []
  = ([get_call (price_url "ARRAY")], inl TypeError).
Proof.
  refine (proj1 (proj2
    (fetch_prices_non_object_body (Sample.server 200) "ARRAY" ["ADDR1"] []
       (mkResponse 200 "[]") (PList []) _ _ _ _))); done.
Defined.

(** ** [fetch_token_overview] *)

Section overview_facts.
Context `{Runtime}.
Variable net : network.
Hypothesis upper_GET : str_upper "GET" = "GET".

(** a body the decoder rejects, or a JSON object that lacks one of the ten
    keys, ends the call with the [ValueError] that names the address *)
Lemma fetch_token_overview_invalid_response a s resp :
  net s (get_call (overview_url a)) = inr resp →
  json_loads (content resp) = None
  ∨ (∃ d k, json_loads (content resp) = Some (PDict d)
            ∧ k ∈ overview_keys ∧ d !! k = None) →
  fetch_token_overview net a s
  = (s ++ [get_call (overview_url a)],
     inl (ValueError (invalid_overview_response a))).
Proof using upper_GET.
  intros Hnet Hbad.
  unfold fetch_token_overview, try_except, bind.
  rewrite make_api_call_GET, Hnet by done.
  unfold lift, Response_json.
  destruct Hbad as [->|(d & k & -> & Hk & Hnone)]; [done|].
  unfold getitem.
  repeat match goal with
    | |- context [d !! ?key] =>
        let E := fresh "E" in
        destruct (d !! key) eqn:E; simpl; [|done]
    end.
  exfalso. unfold overview_keys in Hk.
  repeat (apply elem_of_cons in Hk as [->|Hk]; [congruence|]).
  by apply elem_of_nil in Hk.
Qed.

End overview_facts.

(** C3: when the body decodes to a JSON object that holds the ten keys,
    [fetch_token_overview] returns the record whose ten fields are the ten
    values, as they are. *)
Theorem fetch_token_overview_well_formed `{Runtime} (net : network)
    (a : string) (s : list call) (d : gmap string pyval)
    (v1 v2 v3 v4 v5 v6 v7 v8 v9 v10 : pyval) :
  str_upper "GET" = "GET" →
  receives_object net s (overview_url a) d →
  d !! "address" = Some v1 →
  d !! "decimals" = Some v2 →
  d !! "liquidity" = Some v3 →
  d !! "logoURI" = Some v4 →
  d !! "mc" = Some v5 →
  d !! "symbol" = Some v6 →
  d !! "v24hChangePercent" = Some v7 →
  d !! "v24hUSD" = Some v8 →
  d !! "name" = Some v9 →
  d !! "lastTradeUnixTime" = Some v10 →
  fetch_token_overview net a s
  = (s ++ [get_call (overview_url a)],
     inr {| address := v1; decimals := v2; liquidity := v3; logoURI := v4;
            mc := v5; symbol := v6; v24hChangePercent := v7; v24hUSD := v8;
            name := v9; lastTradeUnixTime := v10 |}).
Proof.
  intros upper_GET (resp & Hnet & Hd) H1 H2 H3 H4 H5 H6 H7 H8 H9 H10.
  unfold fetch_token_overview, try_except, bind.
  rewrite make_api_call_GET, Hnet by done.
  unfold lift, Response_json, getitem, ret.
  by rewrite Hd, H1, H2, H3, H4, H5, H6, H7, H8, H9, H10.
Qed.

Lemma fetch_token_overview_well_formed_witness :
  fetch_token_overview (Sample.server 200) "SOL" []
  = ([get_call (overview_url "SOL")],
     inr {| address := PStr "SOL"; decimals := PInt 9;
            liquidity := PFloat 1500.5;
            logoURI := PStr "https://example.org/sol.png";
            mc := PFloat 2.5e9; symbol := PStr "SOL";
            v24hChangePercent := PFloat (-1.5); v24hUSD := PFloat 1e6;
            name := PStr "Wrapped SOL";
            lastTradeUnixTime := PInt 1700000000 |}).
Proof.
  refine (fetch_token_overview_well_formed (Sample.server 200) "SOL" []
            Sample.overview_fields _ _ _ _ _ _ _ _ _ _ _ _ _ _ _ _ _ _ _ _ _ _);
    try reflexivity.
  eexists. split; reflexivity.
Defined.

(** C5, where the code departs from it: a body that decodes to a JSON value
    other than an object has none of the ten keys, yet the first subscript
    raises [TypeError], which [except (ValueError, KeyError)] lets through;
    the caller gets a [TypeError] and not the [ValueError] naming the
    address. *)
Theorem fetch_token_overview_non_object_body `{Runtime} (net : network)
    (a : string) (s : list call) (resp : Response) (data : pyval) :
  str_upper "GET" = "GET" →
  net s (get_call (overview_url a)) = inr resp →
  json_loads (content resp) = Some data →
  (∀ d, data ≠ PDict d) →
  (∀ k, k ∈ overview_keys → getitem data k = inl TypeError)
  ∧ fetch_token_overview net a s
    = (s ++ [get_call (overview_url a)], inl TypeError).
Proof.
  intros upper_GET Hnet Hdata Hobj.
  assert (∀ k, getitem data k = inl TypeError) as Hget.
  { intros k. destruct data; try done. by destruct (Hobj d). }
  split; [auto|].
  unfold fetch_token_overview, try_except, bind.
  rewrite make_api_call_GET, Hnet by done.
  unfold lift, Response_json. by rewrite Hdata, Hget.
Qed.

Lemma fetch_token_overview_non_object_body_witness :
  fetch_token_overview (Sample.server 200) "NULL" []
  = ([get_call (overview_url "NULL")], inl TypeError).
Proof.
  refine (proj2
    (fetch_token_overview_non_object_body (Sample.server 200) "NULL" []
       (mkResponse 200 "null") PNone _ _ _ _)); done.
Defined.

(** ** The status code is not read *)

Section status.
Context `{Runtime}.
Variables net1 net2 : network.
Hypothesis same : same_up_to_status net1 net2.

Lemma Response_json_content resp1 resp2 :
  content resp1 = content resp2 → Response_json resp1 = Response_json resp2.
Proof. unfold Response_json. by intros ->. Qed.

(** whatever is done with the response of [_make_api_call], if it only
    reads the body, the two networks lead to the same outcome *)
Lemma make_api_call_then_status {A} method query_url args kwargs
    (k : Response → Client A) s :
  (∀ resp1 resp2 s',
     content resp1 = content resp2 → k resp1 s' = k resp2 s') →
  bind (_make_api_call net1 method query_url args kwargs) k s
  = bind (_make_api_call net2 method query_url args kwargs) k s.
Proof using same.
  intros Hk.
  unfold _make_api_call, call_query_method, bind, lift, requests_call, ret,
    raise.
  destruct (query_method method query_url) as [e|v]; [done|].
  destruct (binds v args kwargs); [|done].
  pose proof (same s (mkCall v query_url args _headers kwargs)) as Hs.
  unfold same_reply_up_to_status in Hs.
  destruct (net1 s _) as [e1|resp1], (net2 s _) as [e2|resp2];
    try done; [by subst|by apply Hk].
Qed.

Lemma fetch_price_status address prices s :
  fetch_price net1 address prices s = fetch_price net2 address prices s.
Proof using same.
  unfold fetch_price, try_except.
  rewrite make_api_call_then_status; [done|].
  intros resp1 resp2 s' Hc. unfold bind, lift.
  by rewrite (Response_json_content resp1 resp2 Hc).
Qed.

Lemma fetch_prices_loop_status token_addresses prices s :
  fetch_prices_loop net1 token_addresses prices s
  = fetch_prices_loop net2 token_addresses prices s.
Proof using same.
  revert prices s.
  induction token_addresses as [|a l IH]; intros prices s; [done|].
  simpl. unfold bind. rewrite fetch_price_status.
  destruct (fetch_price net2 a prices s) as [s' [e|prices']]; [done|].
  apply IH.
Qed.

Lemma fetch_token_overview_status a s :
  fetch_token_overview net1 a s = fetch_token_overview net2 a s.
Proof using same.
  unfold fetch_token_overview, try_except.
  rewrite make_api_call_then_status; [done|].
  intros resp1 resp2 s' Hc. unfold bind at 1 3. unfold lift at 1 11.
  by rewrite (Response_json_content resp1 resp2 Hc).
Qed.

End status.

(** C8: two networks that answer every call with the same body, or the same
    exception, and differ at most in the status codes of their responses,
    give [fetch_prices] and [fetch_token_overview] the same outcome, result
    or exception, after the same calls. *)
Theorem status_code_not_inspected `{Runtime} (net1 net2 : network)
    (token_addresses : list string) (a : string) (s : list call) :
  same_up_to_status net1 net2 →
  fetch_prices net1 token_addresses s = fetch_prices net2 token_addresses s
  ∧ fetch_token_overview net1 a s = fetch_token_overview net2 a s.
Proof.
  intros Hsame. split.
  - destruct token_addresses; [done|]. by apply fetch_prices_loop_status.
  - by apply fetch_token_overview_status.
Qed.

Lemma status_code_not_inspected_witness :
  fetch_prices (Sample.server 200) ["ADDR1"; "HTML"] []
  = fetch_prices (Sample.server 500) ["ADDR1"; "HTML"] []
  ∧ fetch_token_overview (Sample.server 200) "SOL" []
    = fetch_token_overview (Sample.server 500) "SOL" [].
Proof.
  apply (status_code_not_inspected (Sample.server 200) (Sample.server 500)).
  intros s c. unfold same_reply_up_to_status, Sample.server.
  repeat case_match; simplify_eq; done.
Defined.

(** ** The failures a caller sees *)

Lemma try_except_raises {A} (body : Client A) classes e0 s s' e :
  try_except body classes (raise e0) s = (s', inl e) →
  e = e0 ∨ classes e = false.
Proof.
  unfold try_except, raise.
  destruct (body s) as [s1 [e1|a]]; [|done].
  destruct (classes e1) eqn:Hc; intros [= _ <-]; auto.
Qed.

Section failures.
Context `{Runtime}.
Variable net : network.

Lemma fetch_prices_loop_raises token_addresses prices s s' e :
  fetch_prices_loop net token_addresses prices s = (s', inl e) →
  (∃ a, a ∈ token_addresses ∧ e = ValueError (invalid_price_response a))
  ∨ is_ValueError e || is_KeyError e = false.
Proof.
  revert prices s.
  induction token_addresses as [|a l IH]; intros prices s; [done|].
  simpl. unfold bind.
  destruct (fetch_price net a prices s) as [s1 [e1|prices']] eqn:Hstep.
  - intros [= _ ->]. apply try_except_raises in Hstep as [->|Hc]; [|by right].
    left. exists a. split; [apply list_elem_of_here|done].
  - intros [(b & Hb & ->)|Hc]%IH; [|by right].
    left. exists b. split; [by apply list_elem_of_further|done].
Qed.

End failures.

(** X10: the three errors the client builds with its own [raise] statements
    are told apart by their messages.  [fetch_prices] on the empty list
    raises the [InvalidInput] error; any [ValueError] or [KeyError] that
    leaves [fetch_prices] on a non-empty list, or [fetch_token_overview], is
    the [InvalidResponse] error whose message ends in the address; a method
    whose upper-case form is neither [GET] nor [POST] makes [_make_api_call]
    raise the [UnsupportedMethod] error.  All three are [ValueError]s, and
    [error_kind_of] recovers the kind from the message.  Exceptions of other
    classes ([TypeError], failures of the transport) are not covered. *)
Theorem error_kinds_distinguishable `{Runtime} (net : network) :
  (∀ s, ∃ e, (fetch_prices net [] s).2 = inl e
             ∧ error_kind_of e = Some InvalidInput)
  ∧ (∀ token_addresses s e,
       token_addresses ≠ [] →
       (fetch_prices net token_addresses s).2 = inl e →
       is_ValueError e || is_KeyError e = true →
       error_kind_of e = Some InvalidResponse
       ∧ ∃ a, a ∈ token_addresses ∧ e = ValueError (invalid_price_response a))
  ∧ (∀ a s e,
       (fetch_token_overview net a s).2 = inl e →
       is_ValueError e || is_KeyError e = true →
       error_kind_of e = Some InvalidResponse
       ∧ e = ValueError (invalid_overview_response a))
  ∧ (∀ method query_url args kwargs s,
       str_upper method ≠ "GET" → str_upper method ≠ "POST" →
       ∃ e, (_make_api_call net method query_url args kwargs s).2 = inl e
            ∧ error_kind_of e = Some UnsupportedMethod
            ∧ e = ValueError (unrecognised_method method query_url)).
Proof.
  split; [|split; [|split]].
  - intros s. by eexists.
  - intros token_addresses s e Hne Hrun Hcaught.
    rewrite fetch_prices_nonempty in Hrun by done.
    destruct (fetch_prices_loop net token_addresses ∅ s) as [s' r] eqn:Hloop.
    simpl in Hrun. subst r.
    apply fetch_prices_loop_raises in Hloop as [(a & Ha & ->)|Hc];
      [|congruence].
    split; [reflexivity|eauto].
  - intros a s e Hrun Hcaught.
    destruct (fetch_token_overview net a s) as [s' r] eqn:Hcall.
    simpl in Hrun. subst r.
    apply try_except_raises in Hcall as [->|Hc]; [|congruence].
    split; reflexivity.
  - intros method query_url args kwargs s Hg Hp.
    rewrite (make_api_call_raise net method query_url args kwargs
               (ValueError (unrecognised_method method query_url)))
      by (by apply query_method_other).
    by eexists.
Qed.

Lemma error_kinds_distinguishable_witness :
  error_kind_of (ValueError (invalid_price_response "HTML"))
  = Some InvalidResponse
  ∧ ∃ a, a ∈ ["ADDR1"; "HTML"]
         ∧ ValueError (invalid_price_response "HTML")
           = ValueError (invalid_price_response a).
Proof.
  refine (proj1 (proj2 (error_kinds_distinguishable (Sample.server 200)))
            ["ADDR1"; "HTML"] [] _ _ _ _); done.
Defined.

(** C7, where the code departs from it: a response whose body decodes to a
    JSON value other than an object is a field-missing response, the
    condition of the [InvalidResponse] kind, yet the exception the caller
    gets from either operation is a bare [TypeError]: it is none of the three
    kinds, [error_kind_of] has no answer for it, and it carries no
    address. *)
Theorem non_object_body_error_has_no_kind `{Runtime} (net : network)
    (a : string) (rest : list string) (s : list call) (resp : Response)
    (data : pyval) :
  str_upper "GET" = "GET" →
  json_loads (content resp) = Some data →
  (∀ d, data ≠ PDict d) →
  (net s (get_call (price_url a)) = inr resp →
   ∃ e, (fetch_prices net (a :: rest) s).2 = inl e
        ∧ e = TypeError ∧ error_kind_of e = None)
  ∧ (net s (get_call (overview_url a)) = inr resp →
     ∃ e, (fetch_token_overview net a s).2 = inl e
          ∧ e = TypeError ∧ error_kind_of e = None).
Proof.
  intros upper_GET Hdata Hobj.
  assert (∀ k, getitem data k = inl TypeError) as Hget.
  { intros k. destruct data; try done. by destruct (Hobj d). }
  split; intros Hnet; exists TypeError; (split; [|done]).
  - rewrite fetch_prices_nonempty, fetch_prices_loop_cons by done.
    rewrite Hnet. unfold price_entry. rewrite Hdata.
    destruct data; try done. by destruct (Hobj d).
  - unfold fetch_token_overview, try_except, bind.
    rewrite make_api_call_GET, Hnet by done.
    unfold lift, Response_json. by rewrite Hdata, Hget.
Qed.

Lemma non_object_body_error_has_no_kind_witness :
  ∃ e, (fetch_prices (Sample.server 200) ["ARRAY"] []).2 = inl e
       ∧ e = TypeError ∧ error_kind_of e = None.
Proof.
  refine (proj1 (non_object_body_error_has_no_kind (Sample.server 200)
                   "ARRAY" [] [] (mkResponse 200 "[]") (PList []) _ _ _) _);
    done.
Defined.

(** * Further properties of the client *)

(** ** How a run of [fetch_prices] ends, and what it has called by then *)

Section price_runs.
Context `{Runtime}.
Variable net : network.
Hypothesis upper_GET : str_upper "GET" = "GET".

Lemma price_entry_inl address reply e :
  price_entry address reply = inl e →
  e = ValueError (invalid_price_response address)
  ∨ is_ValueError e || is_KeyError e = false.
Proof.
  unfold price_entry. destruct reply as [e0|resp].
  { destruct (is_ValueError e0 || is_KeyError e0) eqn:Hc;
      intros [= <-]; auto. }
  destruct (json_loads (content resp)) as [data|]; [|intros [= <-]; auto].
  destruct data; try (intros [= <-]; auto).
  destruct (d !! "value"); [done|intros [= <-]; auto].
Qed.

(** every run of the loop, however it ends, has called the price URLs of a
    prefix of the list, in order; a run that raises stops at the address it
    failed on *)
Lemma fetch_prices_loop_prefix token_addresses prices s s' r :
  fetch_prices_loop net token_addresses prices s = (s', r) →
  ∃ n, n ≤ length token_addresses
       ∧ s' = s ++ price_calls (take n token_addresses)
       ∧ match r with
         | inr _ => n = length token_addresses
         | inl e =>
             ∃ a, 0 < n ∧ token_addresses !! (pred n) = Some a
                  ∧ (e = ValueError (invalid_price_response a)
                     ∨ is_ValueError e || is_KeyError e = false)
         end.
Proof using upper_GET.
  revert prices s.
  induction token_addresses as [|a l IH]; intros prices s.
  { intros [= <- <-]. exists 0. simpl. by rewrite app_nil_r. }
  rewrite fetch_prices_loop_cons by done.
  destruct (price_entry a (net s _)) as [e|v] eqn:Hentry.
  - intros [= <- <-]. exists 1. split; [simpl; lia|]. split; [done|].
    exists a. split; [lia|]. split; [done|]. by eapply price_entry_inl.
  - intros (n & Hn & -> & Hr)%IH. exists (S n).
    split; [simpl; lia|]. split; [by rewrite firstn_cons, price_calls_cons|].
    destruct r as [e|m]; [|simpl; lia].
    destruct Hr as (b & Hpos & Hb & He). exists b.
    split; [lia|]. split; [|done]. destruct n; [lia|done].
Qed.

(** a run started from the mapping [prices] is the run started from the
    empty mapping, with [prices] laid under its result *)
Lemma fetch_prices_loop_init token_addresses prices s :
  fetch_prices_loop net token_addresses prices s
  = match fetch_prices_loop net token_addresses ∅ s with
    | (s', inr m) => (s', inr (m ∪ prices))
    | (s', inl e) => (s', inl e)
    end.
Proof using upper_GET.
  revert prices s.
  induction token_addresses as [|a l IH]; intros prices s.
  { simpl. unfold ret. by rewrite (left_id_L ∅ (∪)). }
  rewrite !fetch_prices_loop_cons by done.
  destruct (price_entry a (net s _)) as [e|v]; [done|].
  rewrite (IH (<[a:=mkPriceInfo v]> prices)), (IH (<[a:=mkPriceInfo v]> ∅)).
  destruct (fetch_prices_loop net l ∅ _) as [s' [e|m]]; [done|].
  do 2 f_equal. rewrite <- (assoc_L (∪)). f_equal.
  by rewrite <- insert_union_l, (left_id_L ∅ (∪)).
Qed.

End price_runs.

(** X1: fail-fast on a bad answer, at any position.  When the iterations
    over [done] have gone through and the answer for the next address [a]
    does not decode, or decodes to a JSON object without the key [value],
    [fetch_prices] raises the [ValueError] naming [a]; the calls made are
    those for [done] and [a], and none for the addresses after [a]. *)
Theorem fetch_prices_stops_at_invalid_response `{Runtime} (net : network)
    (done : list string) (a : string) (rest : list string)
    (s s1 : list call) (m1 : gmap string PriceInfo) (resp : Response) :
  str_upper "GET" = "GET" →
  fetch_prices_loop net done ∅ s = (s1, inr m1) →
  net s1 (get_call (price_url a)) = inr resp →
  json_loads (content resp) = None
  ∨ (∃ d, json_loads (content resp) = Some (PDict d) ∧ d !! "value" = None) →
  fetch_prices net (done ++ a :: rest) s
  = (s ++ price_calls (done ++ [a]),
     inl (ValueError (invalid_price_response a))).
Proof.
  intros upper_GET Hdone Hnet Hbad.
  rewrite (fetch_prices_invalid_response net upper_GET done a rest s s1 m1
             resp Hdone Hnet Hbad).
  apply fetch_prices_loop_calls in Hdone as ->; [|done].
  unfold price_calls. by rewrite fmap_app, app_assoc.
Qed.

Lemma fetch_prices_stops_at_invalid_response_witness :
  fetch_prices (Sample.server 200) ["ADDR1"; "EMPTY"; "ADDR2"] []
  = ([get_call (price_url "ADDR1"); get_call (price_url "EMPTY")],
     inl (ValueError (invalid_price_response "EMPTY"))).
Proof.
  refine (fetch_prices_stops_at_invalid_response (Sample.server 200)
            ["ADDR1"] "EMPTY" ["ADDR2"] [] [get_call (price_url "ADDR1")]
            {["ADDR1" := mkPriceInfo (PFloat 1.23)]}
            (mkResponse 200 "{}") _ _ _ _).
  - reflexivity.
  - by vm_compute.
  - reflexivity.
  - right. exists ∅. split; reflexivity.
Defined.

(** X2: a failure of the transport in [fetch_prices], at any position.  When
    the iterations over [done] have gone through and the call for the next
    address [a] raises [e], an [e] that is a [ValueError] or a [KeyError]
    (subclasses included) is replaced by the [ValueError] naming [a]; any
    other exception reaches the caller unchanged.  No call is made for the
    addresses after [a]. *)
Theorem fetch_prices_transport_failure `{Runtime} (net : network)
    (done : list string) (a : string) (rest : list string)
    (s s1 : list call) (m1 : gmap string PriceInfo) (e : exn) :
  str_upper "GET" = "GET" →
  fetch_prices_loop net done ∅ s = (s1, inr m1) →
  net s1 (get_call (price_url a)) = inl e →
  fetch_prices net (done ++ a :: rest) s
  = (s ++ price_calls (done ++ [a]),
     inl (if is_ValueError e || is_KeyError e
          then ValueError (invalid_price_response a) else e)).
Proof.
  intros upper_GET Hdone Hnet.
  rewrite fetch_prices_nonempty by (by destruct done).
  rewrite fetch_prices_loop_app, Hdone, fetch_prices_loop_cons by done.
  rewrite Hnet. simpl.
  apply fetch_prices_loop_calls in Hdone as ->; [|done].
  unfold price_calls. rewrite fmap_app, app_assoc.
  by destruct (is_ValueError e || is_KeyError e).
Qed.

Lemma fetch_prices_transport_failure_witness :
  fetch_prices (Sample.server 200) ["ADDR1"; "UNKNOWN"; "ADDR2"] []
  = ([get_call (price_url "ADDR1"); get_call (price_url "UNKNOWN")],
     inl ConnectionError).
Proof.
  refine (fetch_prices_transport_failure (Sample.server 200)
            ["ADDR1"] "UNKNOWN" ["ADDR2"] [] [get_call (price_url "ADDR1")]
            {["ADDR1" := mkPriceInfo (PFloat 1.23)]} ConnectionError _ _ _).
  - reflexivity.
  - by vm_compute.
  - reflexivity.
Defined.

(** X3: what [fetch_prices] has called, however it ends.  On a non-empty
    list the calls made are the [GET] calls, with the client's headers, to
    the price URLs of the first [n] addresses, in list order, for some
    [1 <= n <= len]; a run that returns has [n = len]; a run that raises
    failed on the [n]-th address, and the exception is the [ValueError]
    naming that address or an exception that is neither a [ValueError] nor a
    [KeyError]. *)
Theorem fetch_prices_calls_prefix `{Runtime} (net : network)
    (token_addresses : list string) (s s' : list call)
    (r : exn + gmap string PriceInfo) :
  str_upper "GET" = "GET" →
  token_addresses ≠ [] →
  fetch_prices net token_addresses s = (s', r) →
  ∃ n, 0 < n ≤ length token_addresses
       ∧ s' = s ++ price_calls (take n token_addresses)
       ∧ match r with
         | inr _ => n = length token_addresses
         | inl e =>
             ∃ a, token_addresses !! (pred n) = Some a
                  ∧ (e = ValueError (invalid_price_response a)
                     ∨ is_ValueError e || is_KeyError e = false)
         end.
Proof.
  intros upper_GET Hne Hrun. rewrite fetch_prices_nonempty in Hrun by done.
  apply fetch_prices_loop_prefix in Hrun as (n & Hn & -> & Hr); [|done].
  exists n. destruct r as [e|m].
  - destruct Hr as (a & Hpos & Ha & He). split; [lia|]. split; [done|].
    by exists a.
  - subst n. split; [|done]. destruct token_addresses; [done|simpl; lia].
Qed.

Lemma fetch_prices_calls_prefix_witness :
  ∃ n, 0 < n ≤ 3
       ∧ [get_call (price_url "ADDR1"); get_call (price_url "ARRAY")]
         = [] ++ price_calls (take n ["ADDR1"; "ARRAY"; "ADDR2"])
       ∧ ∃ a, ["ADDR1"; "ARRAY"; "ADDR2"] !! (pred n) = Some a
              ∧ (TypeError = ValueError (invalid_price_response a)
                 ∨ is_ValueError TypeError || is_KeyError TypeError = false).
Proof.
  refine (fetch_prices_calls_prefix (Sample.server 200)
            ["ADDR1"; "ARRAY"; "ADDR2"] []
            [get_call (price_url "ADDR1"); get_call (price_url "ARRAY")]
            (inl TypeError) _ _ _).
  - reflexivity.
  - discriminate.
  - by vm_compute.
Defined.

(** X4: a batch can be split.  On two non-empty lists, [fetch_prices] on
    their concatenation is [fetch_prices] on the first followed, if it
    returns, by [fetch_prices] on the second; the result is the union of the
    two mappings, the second taking precedence, and a failure of either part
    is the failure of the whole. *)
Theorem fetch_prices_app `{Runtime} (net : network)
    (l1 l2 : list string) (s : list call) :
  str_upper "GET" = "GET" →
  l1 ≠ [] → l2 ≠ [] →
  fetch_prices net (l1 ++ l2) s
  = match fetch_prices net l1 s with
    | (s1, inr m1) =>
        match fetch_prices net l2 s1 with
        | (s2, inr m2) => (s2, inr (m2 ∪ m1))
        | (s2, inl e) => (s2, inl e)
        end
    | (s1, inl e) => (s1, inl e)
    end.
Proof.
  intros upper_GET H1 H2.
  rewrite !fetch_prices_nonempty by (by destruct l1).
  rewrite fetch_prices_loop_app by done.
  destruct (fetch_prices_loop net l1 ∅ s) as [s1 [e|m1]]; [done|].
  rewrite fetch_prices_nonempty by done.
  by apply fetch_prices_loop_init.
Qed.

Lemma fetch_prices_app_witness :
  fetch_prices (Sample.server 200) (["ADDR1"] ++ ["ADDR2"]) []
  = ([get_call (price_url "ADDR1"); get_call (price_url "ADDR2")],
     inr ({["ADDR2" := mkPriceInfo (PFloat 4.56)]}
          ∪ {["ADDR1" := mkPriceInfo (PFloat 1.23)]})).
Proof.
  rewrite (fetch_prices_app (Sample.server 200) ["ADDR1"] ["ADDR2"] []);
    [by vm_compute|reflexivity|discriminate|discriminate].
Defined.

(** ** Against a network without memory *)

Section history_free_network.
Context `{Runtime}.
Variable net : network.
Hypothesis upper_GET : str_upper "GET" = "GET".
Hypothesis net_history_free : history_free net.

Lemma receives_object_history_free s s' url d :
  receives_object net s url d → receives_object net s' url d.
Proof using net_history_free.
  intros (resp & Hnet & Hd). exists resp.
  by rewrite (net_history_free s' s).
Qed.

Lemma receives_object_agree s url d d' :
  receives_object net s url d → receives_object net s url d' → d = d'.
Proof. intros (resp & Hnet & Hd) (resp' & Hnet' & Hd'). congruence. Qed.

(** a run that returns has, for each of its addresses, received a JSON
    object whose [value] is the price it recorded *)
Lemma fetch_prices_loop_entries l s s' m a :
  fetch_prices_loop net l ∅ s = (s', inr m) → a ∈ l →
  ∃ d v, receives_object net s (price_url a) d
         ∧ d !! "value" = Some v ∧ m !! a = Some (mkPriceInfo v).
Proof using upper_GET net_history_free.
  intros Hrun (done & rest & -> & Hrest)%list_elem_of_split_r.
  destruct (fetch_prices_loop_last net upper_GET _ _ _ _ _ _ _ Hrun Hrest)
    as (d & v & Hobj & Hv & Hm).
  exists d, v. split; [by eapply receives_object_history_free|done].
Qed.

Lemma fetch_prices_loop_same_set l l' s s' m :
  (∀ a, a ∈ l ↔ a ∈ l') →
  fetch_prices_loop net l ∅ s = (s', inr m) →
  fetch_prices_loop net l' ∅ s = (s ++ price_calls l', inr m).
Proof using upper_GET net_history_free.
  intros Hset Hrun.
  destruct (fetch_prices_loop_returns net upper_GET l' ∅ s) as [m' Hrun'].
  { intros i a Ha.
    assert (a ∈ l) as Hal by (apply Hset; by eapply list_elem_of_lookup_2).
    destruct (fetch_prices_loop_entries _ _ _ _ _ Hrun Hal)
      as (d & v & Hobj & Hv & _).
    exists d, v. split; [by eapply receives_object_history_free|done]. }
  rewrite Hrun'. do 2 f_equal. apply map_eq. intros a.
  destruct (decide (a ∈ l')) as [Hal'|Hal'].
  - destruct (fetch_prices_loop_entries _ _ _ _ _ Hrun' Hal')
      as (d' & v' & Hobj' & Hv' & ->).
    destruct (fetch_prices_loop_entries _ _ _ _ _ Hrun (proj2 (Hset a) Hal'))
      as (d & v & Hobj & Hv & ->).
    rewrite (receives_object_agree _ _ _ _ Hobj Hobj') in Hv. congruence.
  - rewrite (fetch_prices_loop_notin net upper_GET _ _ _ _ _ _ Hrun' Hal').
    assert (a ∉ l) as Hal by (intros Hal; by apply Hal', Hset).
    by rewrite (fetch_prices_loop_notin net upper_GET _ _ _ _ _ _ Hrun Hal).
Qed.

End history_free_network.

(** X5: against a network whose answers do not depend on earlier calls, the
    mapping [fetch_prices] returns depends only on the set of addresses
    asked for: if it returns [m] on one list, it returns the same [m] on any
    other list with the same elements, whatever their order and
    repetitions. *)
Theorem fetch_prices_same_addresses `{Runtime} (net : network)
    (l l' : list string) (s s' : list call) (m : gmap string PriceInfo) :
  str_upper "GET" = "GET" →
  history_free net →
  (∀ a, a ∈ l ↔ a ∈ l') →
  fetch_prices net l s = (s', inr m) →
  fetch_prices net l' s = (s ++ price_calls l', inr m).
Proof.
  intros upper_GET Hfree Hset Hrun.
  assert (l ≠ []) as Hl by (by destruct l).
  assert (l' ≠ []) as Hl'.
  { destruct l as [|a l]; [done|]. intros ->.
    by apply (not_elem_of_nil a), Hset, list_elem_of_here. }
  rewrite fetch_prices_nonempty in Hrun |- * by done.
  by eapply fetch_prices_loop_same_set.
Qed.

Lemma fetch_prices_same_addresses_witness :
  fetch_prices (Sample.server 200) ["ADDR2"; "ADDR1"; "ADDR2"] []
  = ([] ++ price_calls ["ADDR2"; "ADDR1"; "ADDR2"],
     inr (<["ADDR2" := mkPriceInfo (PFloat 4.56)]>
            (<["ADDR1" := mkPriceInfo (PFloat 1.23)]> ∅))).
Proof.
  refine (fetch_prices_same_addresses (Sample.server 200)
            ["ADDR1"; "ADDR2"] ["ADDR2"; "ADDR1"; "ADDR2"] []
            [get_call (price_url "ADDR1"); get_call (price_url "ADDR2")]
            _ _ _ _ _).
  - reflexivity.
  - by intros s s' c.
  - intros a. rewrite !elem_of_cons, !elem_of_nil. tauto.
  - by vm_compute.
Defined.

(** ** [fetch_token_overview]: failures and calls *)

Section overview_runs.
Context `{Runtime}.
Variable net : network.
Hypothesis upper_GET : str_upper "GET" = "GET".

(** whatever the answer, the call list grows by the one overview call *)
Lemma fetch_token_overview_calls a s :
  (fetch_token_overview net a s).1 = s ++ [get_call (overview_url a)].
Proof using upper_GET.
  unfold fetch_token_overview, try_except, bind.
  rewrite make_api_call_GET by done.
  destruct (net s _) as [e|resp]; simpl.
  { by destruct (is_ValueError e || is_KeyError e). }
  unfold lift, Response_json.
  destruct (json_loads (content resp)) as [data|]; [|done].
  destruct data; try done. unfold getitem.
  repeat match goal with
    | |- context [d !! ?key] => destruct (d !! key); simpl; [|done]
    end.
  done.
Qed.

End overview_runs.

(** X6: a body that the decoder rejects, or a JSON object that lacks any one
    of the ten keys, makes [fetch_token_overview] raise the [ValueError]
    naming the address, after its one call; which key is missing, and how
    many, makes no difference. *)
Theorem fetch_token_overview_missing_field `{Runtime} (net : network)
    (a : string) (s : list call) (resp : Response) :
  str_upper "GET" = "GET" →
  net s (get_call (overview_url a)) = inr resp →
  json_loads (content resp) = None
  ∨ (∃ d k, json_loads (content resp) = Some (PDict d)
            ∧ k ∈ overview_keys ∧ d !! k = None) →
  fetch_token_overview net a s
  = (s ++ [get_call (overview_url a)],
     inl (ValueError (invalid_overview_response a)))
  ∧ error_kind_of (ValueError (invalid_overview_response a))
    = Some InvalidResponse.
Proof.
  intros upper_GET Hnet Hbad. split; [|reflexivity].
  exact (fetch_token_overview_invalid_response net upper_GET a s resp
           Hnet Hbad).
Qed.

Lemma fetch_token_overview_missing_field_witness :
  fetch_token_overview (Sample.server 200) "NOSYM" []
  = ([get_call (overview_url "NOSYM")],
     inl (ValueError (invalid_overview_response "NOSYM"))).
Proof.
  refine (proj1 (fetch_token_overview_missing_field (Sample.server 200)
                   "NOSYM" [] (mkResponse 200 Sample.overview_body_no_symbol)
                   _ _ _)).
  - reflexivity.
  - reflexivity.
  - right. exists (delete "symbol" Sample.overview_fields), "symbol".
    split; [reflexivity|]. split; [|by vm_compute].
    unfold overview_keys. rewrite !elem_of_cons. tauto.
Defined.

(** X7: a failure of the transport in [fetch_token_overview].  When the call
    raises [e], an [e] that is a [ValueError] or a [KeyError] (subclasses
    included) is replaced by the [ValueError] naming the address; any other
    exception, a connection error for one, reaches the caller unchanged. *)
Theorem fetch_token_overview_transport_failure `{Runtime} (net : network)
    (a : string) (s : list call) (e : exn) :
  str_upper "GET" = "GET" →
  net s (get_call (overview_url a)) = inl e →
  fetch_token_overview net a s
  = (s ++ [get_call (overview_url a)],
     inl (if is_ValueError e || is_KeyError e
          then ValueError (invalid_overview_response a) else e)).
Proof.
  intros upper_GET Hnet.
  unfold fetch_token_overview, try_except, bind.
  rewrite make_api_call_GET, Hnet by done.
  by destruct (is_ValueError e || is_KeyError e).
Qed.

Lemma fetch_token_overview_transport_failure_witness :
  fetch_token_overview (Sample.server 200) "UNKNOWN" []
  = ([get_call (overview_url "UNKNOWN")], inl ConnectionError).
Proof.
  refine (fetch_token_overview_transport_failure (Sample.server 200)
            "UNKNOWN" [] ConnectionError _ _); reflexivity.
Defined.

(** X8: [fetch_token_overview] makes exactly one call, a [GET] to the
    overview URL of its address with the client's headers and nothing else,
    whether it returns a record or raises, and whatever the network
    answers. *)
Theorem fetch_token_overview_one_call `{Runtime} (net : network)
    (a : string) (s : list call) :
  str_upper "GET" = "GET" →
  (fetch_token_overview net a s).1
  = s ++ [mkCall GET (overview_url a) [] _headers []].
Proof. intros upper_GET. by apply fetch_token_overview_calls. Qed.

Lemma fetch_token_overview_one_call_witness :
  (fetch_token_overview (Sample.server 200) "NULL" []).1
  = [] ++ [mkCall GET (overview_url "NULL") [] _headers []].
Proof.
  apply (fetch_token_overview_one_call (Sample.server 200) "NULL" []).
  reflexivity.
Defined.

(** ** The error messages *)

(** X9: the message of an invalid-response error determines the address it
    names, and tells which operation raised it: the messages of
    [fetch_prices] for two addresses are equal only if the addresses are,
    likewise for [fetch_token_overview], and no message of one operation is
    a message of the other. *)
Theorem invalid_response_message_names_address (a b : string) :
  (invalid_price_response a = invalid_price_response b → a = b)
  ∧ (invalid_overview_response a = invalid_overview_response b → a = b)
  ∧ invalid_price_response a ≠ invalid_overview_response b.
Proof.
  unfold invalid_price_response, invalid_overview_response.
  split; [|split]; simpl; intros Heq; by simplify_eq.
Qed.

(** ** The headers cannot be overridden *)

(** X11: a caller of [_make_api_call] cannot pass its own [headers]: with a
    method that selects a verb and a [kwargs] that holds the key [headers],
    the call of line 52 names that keyword twice, so Python raises
    [TypeError] and no request is made, whatever the network would have
    answered. *)
Theorem make_api_call_headers_keyword `{Runtime} (net : network)
    (method query_url : string) (args : list pyval)
    (kwargs : list (string * pyval)) (v : verb) (s : list call) :
  str_upper method = verb_name v →
  "headers" ∈ kwargs.*1 →
  _make_api_call net method query_url args kwargs s = (s, inl TypeError).
Proof.
  intros Hv Hin.
  apply (make_api_call_unbound net method query_url args kwargs v);
    [by apply query_method_verb|].
  unfold binds.
  by rewrite (bool_decide_eq_false_2 ("headers" ∉ kwargs.*1)) by auto.
Qed.

Lemma make_api_call_headers_keyword_witness :
  _make_api_call (Sample.server 200) "get" (price_url "ADDR1") []
    [("headers", PDict ∅)] []
  = ([], inl TypeError).
Proof.
  apply (make_api_call_headers_keyword (Sample.server 200) "get"
           (price_url "ADDR1") [] [("headers", PDict ∅)] GET []).
  - reflexivity.
  - apply list_elem_of_here.
Defined.
